(** * Monte-Carlo estimators of pi: the xorshift generator and its consumers

    A shallow embedding of [pi_monte_carlo.cpp].  Unsigned machine words are
    integers of [Z] with the wrap-around written out; the generator's single
    register [RNG::s] is threaded through a small state monad. *)

From Stdlib Require Import ZArith List Bool Lia QArith.
From Stdlib Require Import Floats Uint63.
Import ListNotations.

Local Open Scope Z_scope.

(** ** Machine words *)

Definition wrap32 (z : Z) : Z := z mod 2 ^ 32.
Definition wrap64 (z : Z) : Z := z mod 2 ^ 64.

(** The values of [uint32_t] and of [uint64_t]. *)
Definition u32 (z : Z) : Prop := 0 <= z < 2 ^ 32.
Definition u64 (z : Z) : Prop := 0 <= z < 2 ^ 64.

(** [x << k] and [x >> k] on a [uint32_t]: the left shift drops the bits that
    leave the word. *)
Definition shl32 (x k : Z) : Z := wrap32 (Z.shiftl x k).
Definition shr32 (x k : Z) : Z := Z.shiftr x k.

(** ** The state monad over the register [s] *)

Definition RNGM (A : Type) : Type := Z -> A * Z.

Definition ret {A} (a : A) : RNGM A := fun s => (a, s).
Definition bind {A B} (m : RNGM A) (f : A -> RNGM B) : RNGM B :=
  fun s => let (a, s') := m s in f a s'.

Declare Scope rng_scope.
Delimit Scope rng_scope with rng.
Notation "x <- m ;; k" := (bind m (fun x => k))
  (at level 61, m at next level, right associativity) : rng_scope.

(** [for (uint32_t i = 0; i < trials; i++) body]: the bodies of the three
    loops read neither [i] nor [trials], and [i + 1] stays below [2^32], so
    the loop is its body run [n] times in a row, [n] the value of [trials],
    on the accumulator [a] and the register. *)
Fixpoint for_loop {A} (n : nat) (body : A -> RNGM A) (a : A) : RNGM A :=
  match n with
  | O => ret a
  | S k => bind (body a) (for_loop k body)
  end.

(** ** struct RNG *)

Module RNG.

Definition default_seed : Z := 123456789.
Definition fallback : Z := 2463534242.

(** [RNG(uint32_t seed)]: the register after construction. *)
Definition init (seed : Z) : Z :=
  let seed := if seed =? 0 then fallback else seed in
  seed.

(** [uint32_t next_u32()] *)
Definition next_u32 : RNGM Z := fun s =>
  let x := s in
  let x := Z.lxor x (shl32 x 13) in
  let x := Z.lxor x (shr32 x 17) in
  let x := Z.lxor x (shl32 x 5) in
  (x, x).

(** The integer [val] that [next_double] builds before the division. *)
Definition next_val : RNGM Z :=
  (hi <- next_u32 ;;
   lo <- next_u32 ;;
   let hi := shr32 hi 6 in
   let lo := shr32 lo 5 in
   ret (Z.lor (wrap64 (Z.shiftl hi 27)) lo))%rng.

(** [double next_double()].  [val] is below [2^53], so the conversion to
    [double] is exact, and so is the division by the power of two [2^53]:
    the returned double is the rational [val / 2^53]. *)
Definition next_double : RNGM Q :=
  (val <- next_val ;;
   ret (Qmake val (2 ^ 53)))%rng.

(** The transition of the register alone, and the register after [n]
    calls of [next_u32]. *)
Definition step (s : Z) : Z := snd (next_u32 s).
Definition after (n : nat) (s : Z) : Z := Nat.iter n step s.

End RNG.

(** ** Method 1: quarter circle *)

Definition MAX : Z := 0xFFFFFFFF.

(** The two draws of a trial. *)
Definition circle_draw : RNGM (Z * Z) :=
  (x <- RNG.next_u32 ;;
   y <- RNG.next_u32 ;;
   ret (x, y))%rng.

(** The membership test of the loop body, on 64-bit words. *)
Definition circle_test (p : Z * Z) : bool :=
  let (x, y) := p in
  let xx := wrap64 (x * x) in
  let yy := wrap64 (y * y) in
  let max2 := wrap64 (MAX * MAX) in
  wrap64 (xx + yy) <=? max2.

Definition circle_trial (hits : Z) : RNGM Z :=
  (x <- RNG.next_u32 ;;
   y <- RNG.next_u32 ;;
   let xx := wrap64 (x * x) in
   let yy := wrap64 (y * y) in
   let max2 := wrap64 (MAX * MAX) in
   ret (if wrap64 (xx + yy) <=? max2 then wrap64 (hits + 1) else hits))%rng.

(** [uint64_t circle_count_uint(uint32_t trials, RNG &rng)] *)
Definition circle_count_uint (trials : Z) : RNGM Z :=
  for_loop (Z.to_nat trials) circle_trial 0.

(** ** Method 2: coprime pairs *)

(** Modelled from the spec: [std::gcd] of the C++ library, which the source
    calls and does not define; the spec has it as the Euclidean algorithm.
    The second argument at least halves every two rounds, so the fuel of
    [gcd] below is enough for the loop to reach its end. *)
Fixpoint euclid (fuel : nat) (a b : Z) : Z :=
  match fuel with
  | O => a
  | S k => if b =? 0 then a else euclid k b (a mod b)
  end.

Definition gcd (a b : Z) : Z :=
  euclid (S (2 * Z.to_nat (Z.log2 b + 1))) a b.

Definition coprime_draw : RNGM (Z * Z) :=
  (a <- RNG.next_u32 ;;
   b <- RNG.next_u32 ;;
   ret (Z.lor a 1, Z.lor b 1))%rng.

Definition coprime_test (p : Z * Z) : bool :=
  let (a, b) := p in gcd a b =? 1.

Definition coprime_trial (hits : Z) : RNGM Z :=
  (a <- RNG.next_u32 ;;
   let a := Z.lor a 1 in
   b <- RNG.next_u32 ;;
   let b := Z.lor b 1 in
   ret (if gcd a b =? 1 then wrap32 (hits + 1) else hits))%rng.

(** [uint32_t coprime_count(uint32_t trials, RNG &rng)] *)
Definition coprime_count (trials : Z) : RNGM Z :=
  for_loop (Z.to_nat trials) coprime_trial 0.

(** ** Method 3: Buffon's needle *)

Section Buffon.

(** The floating-point part of a trial, as a function of the two doubles
    [u] and [v] that [next_double] returned:
    [u * 0.5 <= 0.5 * sin (v * (M_PI / 2.0))]. *)
Variable crossing : Q -> Q -> bool.

Definition buffon_draw : RNGM (Q * Q) :=
  (u <- RNG.next_double ;;
   v <- RNG.next_double ;;
   ret (u, v))%rng.

Definition buffon_test (p : Q * Q) : bool :=
  let (u, v) := p in crossing u v.

Definition buffon_trial (crosses : Z) : RNGM Z :=
  (u <- RNG.next_double ;;
   v <- RNG.next_double ;;
   ret (if crossing u v then wrap32 (crosses + 1) else crosses))%rng.

(** [uint32_t buffon_count(uint32_t trials, RNG &rng)] *)
Definition buffon_count (trials : Z) : RNGM Z :=
  for_loop (Z.to_nat trials) buffon_trial 0.

End Buffon.

(** ** The trials of a run *)

(** What [n] consecutive trials draw from the register [s], in order, and
    the register they leave. *)
Fixpoint draws {A} (draw : RNGM A) (n : nat) (s : Z) : list A :=
  match n with
  | O => []
  | S k => let (p, s') := draw s in p :: draws draw k s'
  end.

Fixpoint drained {A} (draw : RNGM A) (n : nat) (s : Z) : Z :=
  match n with
  | O => s
  | S k => drained draw k (snd (draw s))
  end.

(** The number of accepted trials, as an unbounded integer. *)
Definition tally {A} (accept : A -> bool) (l : list A) : Z :=
  Z.of_nat (length (filter accept l)).

(** The membership test as the comment of the source states it, in exact
    integer arithmetic. *)
Definition in_quarter_circle (p : Z * Z) : bool :=
  let (x, y) := p in x * x + y * y <=? MAX * MAX.


(** The transform of [next_uint32] as the specification words it: three
    xor-with-shift steps on 32-bit words, a left shift being a product that
    wraps and a right shift a quotient. *)
Definition xor_shl (k x : Z) : Z := Z.lxor x ((x * 2 ^ k) mod 2 ^ 32).
Definition xor_shr (k x : Z) : Z := Z.lxor x (x / 2 ^ k).
Definition xorshift_spec (s : Z) : Z := xor_shl 5 (xor_shr 17 (xor_shl 13 s)).

(** The pairs of the coprimality test: both components odd, and the
    reference test that the greatest common divisor of the integers is 1. *)
Definition both_odd (p : Z * Z) : Prop :=
  Z.odd (fst p) = true /\ Z.odd (snd p) = true.

Definition both_nonneg (p : Z * Z) : Prop := 0 <= fst p /\ 0 <= snd p.

Definition coprime_pair (p : Z * Z) : bool := Z.gcd (fst p) (snd p) =? 1.

(** ** Driving an engine *)

Inductive call : Type := Call_u32 | Call_double.

Inductive output : Type :=
| Out_u32 (x : Z)
| Out_double (d : Q).

Definition perform (c : call) : RNGM output :=
  match c with
  | Call_u32 => (x <- RNG.next_u32 ;; ret (Out_u32 x))%rng
  | Call_double => (d <- RNG.next_double ;; ret (Out_double d))%rng
  end.

(** An engine in register [s], driven with the calls [cs], answers [os] and
    is left in register [s']. *)
Inductive driven : Z -> list call -> list output -> Z -> Prop :=
| driven_done s : driven s [] [] s
| driven_call s c o s1 cs os s2 :
    perform c s = (o, s1) ->
    driven s1 cs os s2 ->
    driven s (c :: cs) (o :: os) s2.

Fixpoint drive (cs : list call) : RNGM (list output) :=
  match cs with
  | [] => ret []
  | c :: cs' => (o <- perform c ;; os <- drive cs' ;; ret (o :: os))%rng
  end.

(** ** The estimates of [main] *)

Module Driver.

Local Open Scope float_scope.

Definition Ns : list Z := [100; 1000; 10000; 100000]%Z.

(** [(double)n] for an unsigned count. *)
Definition to_double (n : Z) : float := PrimFloat.of_uint63 (Uint63.of_Z n).

(** [(double)val / (double)((uint64_t)1 << 53)] of [next_double], in
    binary64 arithmetic. *)
Definition double_of_val (val : Z) : float :=
  to_double val / to_double (Z.shiftl 1 53).

(** Method 1: [pi_est = 4.0 * p]. *)
Definition circle_pi_est (hits n : Z) : float :=
  let p := to_double hits / to_double n in
  4 * p.

(** Method 2: [pi_est = sqrt(6.0 / p)]. *)
Definition coprime_pi_est (hits n : Z) : float :=
  let p := to_double hits / to_double n in
  PrimFloat.sqrt (6 / p).

(** Method 3: [pi_est = (p > 0.0) ? (2.0 / p) : 0.0]. *)
Definition buffon_pi_est (crosses n : Z) : float :=
  let p := to_double crosses / to_double n in
  if 0 <? p then 2 / p else 0.

End Driver.

(** ** The tables of [main] *)

(** A line of a table: the sample size [N], the count, the probability [p]
    and the estimate. *)
Record row : Type := Row {
  row_N : Z;
  row_count : Z;
  row_p : float;
  row_pi_est : float
}.

(** [for (auto n : Ns) ...] on the shared engine, collecting what each round
    prints. *)
Fixpoint for_each {A} (l : list Z) (f : Z -> RNGM A) : RNGM (list A) :=
  match l with
  | [] => ret []
  | n :: l' => (r <- f n ;; rs <- for_each l' f ;; ret (r :: rs))%rng
  end.

Definition method1 (n : Z) : RNGM row :=
  (hits <- circle_count_uint n ;;
   let p := (Driver.to_double hits / Driver.to_double n)%float in
   let pi_est := (4 * p)%float in
   ret (Row n hits p pi_est))%rng.

Definition method2 (n : Z) : RNGM row :=
  (hits <- coprime_count n ;;
   let p := (Driver.to_double hits / Driver.to_double n)%float in
   let pi_est := PrimFloat.sqrt (6 / p) in
   ret (Row n hits p pi_est))%rng.

Section Tables.

Variable crossing : Q -> Q -> bool.

Definition method3 (n : Z) : RNGM row :=
  (crosses <- buffon_count crossing n ;;
   let p := (Driver.to_double crosses / Driver.to_double n)%float in
   let pi_est := (if 0 <? p then 2 / p else 0)%float in
   ret (Row n crosses p pi_est))%rng.

(** The body of [main] for a list of sample sizes and a seed: one engine,
    the three methods one after the other, each over the whole list. *)
Definition tables (l : list Z) (seed : Z) : (list row * list row * list row) * Z :=
  let rng := RNG.init seed in
  (t1 <- for_each l method1 ;;
   t2 <- for_each l method2 ;;
   t3 <- for_each l method3 ;;
   ret (t1, t2, t3))%rng rng.

Definition main : (list row * list row * list row) * Z :=
  tables Driver.Ns 123456789.

End Tables.

(** The number of trials of a list of sample sizes. *)
Definition trials_of (l : list Z) : nat := list_sum (map Z.to_nat l).

(** The registers [s], [step s], ..., the first [n] of them. *)
Definition orbit (n : nat) (s : Z) : list Z :=
  map (fun i => RNG.after i s) (seq 0 n).

(** ** The stream of an engine *)

(** Output number [i] of an engine that starts in register [s0], as the
    xorshift transform dictates it; output 0 is [s0] itself. *)
Definition word_at (s0 : Z) (i : nat) : Z := Nat.iter i xorshift_spec s0.

(** The number of 32-bit outputs a call takes from the stream. *)
Definition outputs_taken (c : call) : nat :=
  match c with
  | Call_u32 => 1
  | Call_double => 2
  end.

Definition outputs_taken_by (cs : list call) : nat :=
  list_sum (map outputs_taken cs).

(** What the calls [cs] answer when the first of them starts [pos] outputs
    into the stream of [s0]: a word of the stream for [next_u32], and for
    [next_double] the quotient by [2^53] of the next word without its low 6
    bits, moved up by 27 bits, plus the word after it without its low 5
    bits. *)
Fixpoint stream_outputs (s0 : Z) (pos : nat) (cs : list call) : list output :=
  match cs with
  | [] => []
  | Call_u32 :: cs' =>
      Out_u32 (word_at s0 (S pos)) :: stream_outputs s0 (S pos) cs'
  | Call_double :: cs' =>
      Out_double
        (Qmake (word_at s0 (S pos) / 2 ^ 6 * 2 ^ 27
                + word_at s0 (S (S pos)) / 2 ^ 5) (2 ^ 53))
      :: stream_outputs s0 (S (S pos)) cs'
  end.

(** * Properties *)

(** ** Words *)

Lemma wrap32_u32 z : u32 (wrap32 z).
Proof. unfold u32, wrap32. apply Z.mod_pos_bound. lia. Qed.

Lemma wrap64_u64 z : u64 (wrap64 z).
Proof. unfold u64, wrap64. apply Z.mod_pos_bound. lia. Qed.

Lemma wrap32_small z : u32 z -> wrap32 z = z.
Proof. intros H. apply Z.mod_small. exact H. Qed.

Lemma wrap64_small z : u64 z -> wrap64 z = z.
Proof. intros H. apply Z.mod_small. exact H. Qed.

Lemma log2_below n a : 0 < n -> 0 <= a < 2 ^ n -> Z.log2 a < n.
Proof.
  intros Hn [Ha Hlt].
  destruct (Z.eq_dec a 0) as [->|Hnz].
  - simpl. exact Hn.
  - apply Z.log2_lt_pow2; lia.
Qed.

Lemma below_log2 n a : 0 <= a -> Z.log2 a < n -> a < 2 ^ n.
Proof.
  intros Ha Hl.
  destruct (Z.eq_dec a 0) as [->|Hnz].
  - apply Z.pow_pos_nonneg; [lia|]. pose proof (Z.log2_nonneg 0). lia.
  - apply Z.log2_lt_pow2; lia.
Qed.

Lemma lxor_below n a b :
  0 < n -> 0 <= a < 2 ^ n -> 0 <= b < 2 ^ n -> 0 <= Z.lxor a b < 2 ^ n.
Proof.
  intros Hn Ha Hb.
  assert (Hnn : 0 <= Z.lxor a b) by (apply Z.lxor_nonneg; lia).
  split; [exact Hnn|].
  apply below_log2; [exact Hnn|].
  pose proof (Z.log2_lxor a b (proj1 Ha) (proj1 Hb)) as Hl.
  pose proof (log2_below n a Hn Ha). pose proof (log2_below n b Hn Hb).
  lia.
Qed.

Lemma lxor_u32 a b : u32 a -> u32 b -> u32 (Z.lxor a b).
Proof. apply lxor_below. lia. Qed.

Lemma shr32_u32 x k : 0 <= k -> u32 x -> u32 (shr32 x k).
Proof.
  intros Hk [H0 H1]. unfold u32, shr32. rewrite Z.shiftr_div_pow2 by exact Hk.
  assert (0 < 2 ^ k) by (apply Z.pow_pos_nonneg; lia).
  split.
  - apply Z.div_pos; lia.
  - apply Z.le_lt_trans with x; [|exact H1].
    apply Z.div_le_upper_bound; nia.
Qed.

(** ** The generator *)

Lemma next_u32_spec s : RNG.next_u32 s = (xorshift_spec s, xorshift_spec s).
Proof.
  unfold RNG.next_u32, xorshift_spec, xor_shl, xor_shr, shl32, shr32, wrap32.
  rewrite !Z.shiftl_mul_pow2, !Z.shiftr_div_pow2 by lia.
  reflexivity.
Qed.

Lemma xor_shl_u32 k x : u32 x -> u32 (xor_shl k x).
Proof. intros H. apply lxor_u32; [exact H|]. apply (wrap32_u32 (x * 2 ^ k)). Qed.

Lemma xor_shr_u32 k x : 0 <= k -> u32 x -> u32 (xor_shr k x).
Proof.
  intros Hk H. apply lxor_u32; [exact H|].
  rewrite <- Z.shiftr_div_pow2 by exact Hk. apply shr32_u32; assumption.
Qed.

Lemma xorshift_spec_u32 s : u32 s -> u32 (xorshift_spec s).
Proof.
  intros H. unfold xorshift_spec.
  apply xor_shl_u32, xor_shr_u32; [lia|]. apply xor_shl_u32, H.
Qed.

Lemma step_spec s : RNG.step s = xorshift_spec s.
Proof. unfold RNG.step. rewrite next_u32_spec. reflexivity. Qed.

Lemma step_u32 s : u32 s -> u32 (RNG.step s).
Proof. rewrite step_spec. apply xorshift_spec_u32. Qed.

Lemma after_u32 n s : u32 s -> u32 (RNG.after n s).
Proof.
  intros H. induction n as [|n IH]; [exact H|].
  unfold RNG.after in *. simpl. apply step_u32, IH.
Qed.

(** A left xor-shift step has no nonzero word it sends to zero: the word
    would be congruent to its own multiple by [2^k], and [2^k - 1] is odd. *)
Lemma xor_shl_zero k x :
  0 < k -> Z.gcd (2 ^ 32) (2 ^ k - 1) = 1 -> u32 x -> xor_shl k x = 0 -> x = 0.
Proof.
  intros Hk Hodd [H0 H1] H. unfold xor_shl in H. apply Z.lxor_eq in H.
  assert (Hp : 0 < 2 ^ k) by (apply Z.pow_pos_nonneg; lia).
  assert (Hdiv : (2 ^ 32 | (2 ^ k - 1) * x)).
  { exists ((x * 2 ^ k) / 2 ^ 32).
    pose proof (Z.div_mod (x * 2 ^ k) (2 ^ 32) ltac:(lia)) as E.
    rewrite <- H in E. lia. }
  apply Z.gauss in Hdiv; [|exact Hodd].
  destruct Hdiv as [q Hq]. nia.
Qed.

Lemma xor_shr_zero k x :
  0 < k -> u32 x -> xor_shr k x = 0 -> x = 0.
Proof.
  intros Hk [H0 H1] H. unfold xor_shr in H. apply Z.lxor_eq in H.
  destruct (Z.eq_dec x 0) as [E|E]; [exact E|].
  assert (x / 2 ^ k < x).
  { apply Z.div_lt; [lia|]. apply Z.pow_gt_1; lia. }
  lia.
Qed.

Lemma step_nonzero s : u32 s -> s <> 0 -> RNG.step s <> 0.
Proof.
  intros Hs Hnz E. rewrite step_spec in E. unfold xorshift_spec in E.
  apply xor_shl_zero in E; [|lia|reflexivity|].
  - apply xor_shr_zero in E; [|lia|].
    + apply xor_shl_zero in E; [congruence|lia|reflexivity|exact Hs].
    + apply xor_shl_u32, Hs.
  - apply xor_shr_u32; [lia|]. apply xor_shl_u32, Hs.
Qed.

Lemma init_u32 v : u32 v -> u32 (RNG.init v).
Proof.
  intros H. unfold RNG.init. destruct (v =? 0); [|exact H].
  unfold u32, RNG.fallback. lia.
Qed.

Lemma init_nonzero v : RNG.init v <> 0.
Proof.
  unfold RNG.init. destruct (Z.eqb_spec v 0) as [E|E]; [|exact E].
  unfold RNG.fallback. lia.
Qed.

Lemma after_nonzero n s : u32 s -> s <> 0 -> RNG.after n s <> 0.
Proof.
  intros Hs Hnz. induction n as [|n IH]; [exact Hnz|].
  unfold RNG.after in *. simpl. apply step_nonzero; [|exact IH].
  apply (after_u32 n s Hs).
Qed.

(** C2: for every state [s] (a 32-bit word), [next_u32] computes the
    three-step xorshift transform of [s] (xor with the wrapping left shift by
    13, then with the right shift by 17, then with the wrapping left shift by
    5), a 32-bit word again, stores it as the new state and returns it. *)
Theorem next_u32_xorshift s :
  u32 s ->
  let r := xor_shl 5 (xor_shr 17 (xor_shl 13 s)) in
  RNG.next_u32 s = (r, r) /\ u32 r.
Proof.
  intros Hs r. split.
  - apply next_u32_spec.
  - apply (xorshift_spec_u32 s Hs).
Qed.

Lemma next_u32_xorshift_witness :
  RNG.next_u32 123456789 = (2714967881, 2714967881) /\ u32 2714967881.
Proof.
  apply (next_u32_xorshift 123456789). unfold u32. lia.
Defined.

(** C3: a nonzero seed is the state after construction, the seed zero is
    replaced by 2463534242, and from a constructed state no number of
    [next_u32] calls leads to the state zero. *)
Theorem constructed_state_never_zero v :
  u32 v ->
  (v <> 0 -> RNG.init v = v) /\
  (v = 0 -> RNG.init v = 2463534242) /\
  forall n, RNG.after n (RNG.init v) <> 0.
Proof.
  intros Hv. split; [|split].
  - intros Hnz. unfold RNG.init. destruct (Z.eqb_spec v 0); [contradiction|reflexivity].
  - intros ->. reflexivity.
  - intros n. apply after_nonzero; [apply init_u32, Hv|apply init_nonzero].
Qed.

Lemma constructed_state_never_zero_witness :
  (0 <> 0 -> RNG.init 0 = 0) /\
  (0 = 0 -> RNG.init 0 = 2463534242) /\
  forall n, RNG.after n (RNG.init 0) <> 0.
Proof.
  apply (constructed_state_never_zero 0). unfold u32. lia.
Defined.

(** ** next_double *)

Lemma land_shiftl_low hi lo n :
  0 <= n -> 0 <= lo < 2 ^ n -> Z.land (Z.shiftl hi n) lo = 0.
Proof.
  intros Hn [H0 H1]. apply Z.bits_inj'. intros i Hi.
  rewrite Z.land_spec, Z.bits_0.
  destruct (Z.lt_ge_cases i n) as [Hlt|Hge].
  - rewrite Z.shiftl_spec_low by exact Hlt. reflexivity.
  - destruct (Z.eq_dec lo 0) as [->|Hnz].
    + rewrite Z.bits_0. apply andb_false_r.
    + rewrite (Z.bits_above_log2 lo i); [apply andb_false_r|exact H0|].
      assert (Z.log2 lo < n) by (apply Z.log2_lt_pow2; lia). lia.
Qed.

Lemma lor_shiftl_add hi lo n :
  0 <= n -> 0 <= lo < 2 ^ n -> Z.lor (Z.shiftl hi n) lo = hi * 2 ^ n + lo.
Proof.
  intros Hn Hlo. pose proof (land_shiftl_low hi lo n Hn Hlo) as Hd.
  rewrite <- (Z.lxor_lor _ _ Hd), <- (Z.add_nocarry_lxor _ _ Hd).
  rewrite Z.shiftl_mul_pow2 by exact Hn. reflexivity.
Qed.

Lemma div_pow2_below x a b :
  0 <= a <= b -> 0 <= x < 2 ^ b -> 0 <= x / 2 ^ a < 2 ^ (b - a).
Proof.
  intros Hab [H0 H1].
  assert (0 < 2 ^ a) by (apply Z.pow_pos_nonneg; lia).
  split; [apply Z.div_pos; lia|].
  apply Z.div_lt_upper_bound; [lia|].
  rewrite <- Z.pow_add_r by lia. replace (a + (b - a)) with b by lia. exact H1.
Qed.

Lemma next_val_spec s :
  u32 s ->
  let x := RNG.step s in
  let y := RNG.step x in
  let val := x / 2 ^ 6 * 2 ^ 27 + y / 2 ^ 5 in
  RNG.next_val s = (val, y) /\ 0 <= val < 2 ^ 53.
Proof.
  intros Hs x y val.
  assert (Hx : u32 x) by apply (step_u32 s Hs).
  assert (Hy : u32 y) by apply (step_u32 x Hx).
  pose proof (div_pow2_below x 6 32 ltac:(lia) Hx) as Hhi.
  pose proof (div_pow2_below y 5 32 ltac:(lia) Hy) as Hlo.
  change (32 - 6) with 26 in Hhi. change (32 - 5) with 27 in Hlo.
  assert (Hval : 0 <= val < 2 ^ 53) by (unfold val; lia).
  split; [|exact Hval].
  unfold RNG.next_val, bind, ret. rewrite !next_u32_spec, <- !step_spec.
  fold x. fold y.
  unfold shr32. rewrite !Z.shiftr_div_pow2 by lia.
  rewrite wrap64_small.
  - rewrite lor_shiftl_add by lia. reflexivity.
  - unfold u64. rewrite Z.shiftl_mul_pow2 by lia. lia.
Qed.

(** At the two ends of the range of [val] the binary64 quotient is 0 and
    the double just below 1. *)
Example double_of_val_ends :
  Driver.double_of_val 0 = 0%float /\
  (Driver.double_of_val (2 ^ 53 - 1) <? 1)%float = true /\
  Driver.double_of_val (2 ^ 53 - 1) = 0x1.fffffffffffffp-1%float.
Proof. vm_compute. repeat split; reflexivity. Qed.

(** C4: from every 32-bit state, [next_double] makes two draws [x] and [y],
    drops the low 6 bits of [x] and the low 5 bits of [y], joins the rest
    into the integer [val] below [2^53] and returns [val / 2^53], which is
    at least 0 and below 1. *)
Theorem next_double_unit_interval s :
  u32 s ->
  let x := fst (RNG.next_u32 s) in
  let y := fst (RNG.next_u32 (snd (RNG.next_u32 s))) in
  let val := x / 2 ^ 6 * 2 ^ 27 + y / 2 ^ 5 in
  RNG.next_double s = (Qmake val (2 ^ 53), RNG.after 2 s) /\
  0 <= val < 2 ^ 53 /\
  (0 <= fst (RNG.next_double s) /\ fst (RNG.next_double s) < 1)%Q.
Proof.
  intros Hs x y val.
  destruct (next_val_spec s Hs) as [E Hval].
  assert (Ed : RNG.next_double s = (Qmake val (2 ^ 53), RNG.after 2 s)).
  { unfold RNG.next_double, bind, ret. rewrite E. reflexivity. }
  split; [exact Ed|]. split; [exact Hval|].
  rewrite Ed. unfold Qle, Qlt. simpl fst. simpl Qnum. simpl Qden.
  change (Z.pos (2 ^ 53)) with (2 ^ 53).
  change (0 <= val < 2 ^ 53) in Hval. lia.
Qed.

Lemma next_double_unit_interval_witness :
  RNG.next_double 123456789 =
    (Qmake 5693700372663462 (2 ^ 53), RNG.after 2 123456789) /\
  0 <= 5693700372663462 < 2 ^ 53 /\
  (0 <= fst (RNG.next_double 123456789%Z) /\
   fst (RNG.next_double 123456789%Z) < 1)%Q.
Proof.
  apply (next_double_unit_interval 123456789). unfold u32. lia.
Defined.

(** ** Counting loops *)

Lemma tally_nil {A} (accept : A -> bool) : tally accept [] = 0.
Proof. reflexivity. Qed.

Lemma tally_cons {A} (accept : A -> bool) p l :
  tally accept (p :: l) = (if accept p then 1 else 0) + tally accept l.
Proof.
  unfold tally. simpl. destruct (accept p); [|reflexivity].
  simpl length. lia.
Qed.

Lemma tally_app {A} (accept : A -> bool) l1 l2 :
  tally accept (l1 ++ l2) = tally accept l1 + tally accept l2.
Proof.
  unfold tally. rewrite filter_app, length_app. lia.
Qed.

Lemma tally_bounds {A} (accept : A -> bool) l :
  0 <= tally accept l <= Z.of_nat (length l).
Proof.
  unfold tally. pose proof (filter_length_le accept l). lia.
Qed.

Lemma tally_ext {A} (f g : A -> bool) l :
  Forall (fun p => f p = g p) l -> tally f l = tally g l.
Proof.
  induction 1 as [|p l Hp _ IH]; [reflexivity|].
  rewrite !tally_cons, Hp, IH. reflexivity.
Qed.

Lemma draws_length {A} (draw : RNGM A) n : forall s, length (draws draw n s) = n.
Proof.
  induction n as [|n IH]; intros s; simpl; [reflexivity|].
  destruct (draw s) as [p s']. simpl. rewrite IH. reflexivity.
Qed.

Lemma draws_app {A} (draw : RNGM A) m k : forall s,
  draws draw (m + k) s = draws draw m s ++ draws draw k (drained draw m s).
Proof.
  induction m as [|m IH]; intros s; simpl; [reflexivity|].
  destruct (draw s) as [p s']. simpl. rewrite IH. reflexivity.
Qed.

Lemma draws_Forall {A} (draw : RNGM A) (P : A -> Prop) (I : Z -> Prop) :
  (forall s, I s -> P (fst (draw s)) /\ I (snd (draw s))) ->
  forall n s, I s -> Forall P (draws draw n s).
Proof.
  intros Hstep. induction n as [|n IH]; intros s Hs; simpl; [constructor|].
  specialize (Hstep s Hs). destruct (draw s) as [p s']. simpl in Hstep.
  constructor; [apply Hstep|]. apply IH, Hstep.
Qed.

Lemma drained_after {A} (draw : RNGM A) k :
  (forall s, snd (draw s) = RNG.after k s) ->
  forall n s, drained draw n s = RNG.after (n * k) s.
Proof.
  intros Hk. induction n as [|n IH]; intros s; simpl; [reflexivity|].
  rewrite IH, Hk. unfold RNG.after.
  rewrite (Nat.add_comm k (n * k)). symmetry. apply Nat.iter_add.
Qed.

Section Counting.

Context {A : Type}.
Variables (draw : RNGM A) (accept : A -> bool).
Variables (wrap : Z -> Z) (width : Z) (trial : Z -> RNGM Z).

Hypothesis wrap_small : forall z, 0 <= z < 2 ^ width -> wrap z = z.
Hypothesis trial_draw : forall h s,
  trial h s =
    (if accept (fst (draw s)) then wrap (h + 1) else h, snd (draw s)).

(** The counter of the loop is the tally of the accepted trials as long
    as the word can hold it. *)
Lemma for_loop_tally n : forall h s,
  0 <= h -> h + Z.of_nat n < 2 ^ width ->
  for_loop n trial h s =
    (h + tally accept (draws draw n s), drained draw n s).
Proof.
  induction n as [|n IH]; intros h s H0 Hlt.
  - simpl. unfold ret. rewrite tally_nil, Z.add_0_r. reflexivity.
  - simpl for_loop. unfold bind. rewrite trial_draw.
    simpl draws. simpl drained. destruct (draw s) as [p s']. simpl fst. simpl snd.
    rewrite tally_cons. destruct (accept p).
    + rewrite wrap_small by lia. rewrite IH by lia. f_equal. lia.
    + rewrite IH by lia. reflexivity.
Qed.

(** The register after the loop does not depend on the counter. *)
Lemma for_loop_drained n : forall h s,
  snd (for_loop n trial h s) = drained draw n s.
Proof.
  induction n as [|n IH]; intros h s; [reflexivity|].
  simpl for_loop. unfold bind. rewrite trial_draw. simpl drained.
  apply IH.
Qed.

End Counting.

(** ** The three loops *)

Lemma next_u32_pair s : RNG.next_u32 s = (RNG.step s, RNG.step s).
Proof. rewrite step_spec. apply next_u32_spec. Qed.

Lemma next_double_pair s :
  RNG.next_double s =
    (Qmake (fst (RNG.next_val s)) (2 ^ 53), RNG.step (RNG.step s)).
Proof.
  unfold RNG.next_double, RNG.next_val, bind, ret.
  rewrite (next_u32_pair s), (next_u32_pair (RNG.step s)). reflexivity.
Qed.

Lemma circle_draw_pair s :
  circle_draw s = ((RNG.step s, RNG.step (RNG.step s)), RNG.after 2 s).
Proof.
  unfold circle_draw, bind, ret.
  rewrite (next_u32_pair s), (next_u32_pair (RNG.step s)). reflexivity.
Qed.

Lemma coprime_draw_pair s :
  coprime_draw s =
    ((Z.lor (RNG.step s) 1, Z.lor (RNG.step (RNG.step s)) 1), RNG.after 2 s).
Proof.
  unfold coprime_draw, bind, ret.
  rewrite (next_u32_pair s), (next_u32_pair (RNG.step s)). reflexivity.
Qed.

Lemma snd_next_double s : snd (RNG.next_double s) = RNG.after 2 s.
Proof. rewrite next_double_pair. reflexivity. Qed.

Lemma after_add n m s : RNG.after n (RNG.after m s) = RNG.after (n + m) s.
Proof. symmetry. apply Nat.iter_add. Qed.

(** Names the double a [next_double] call returns from the register [s] and
    puts the register it leaves in terms of [RNG.after]. *)
Ltac name_double s :=
  let H := fresh "H" in
  let d := fresh "d" in
  let s' := fresh "s" in
  pose proof (snd_next_double s) as H;
  destruct (RNG.next_double s) as [d s'];
  cbn [snd] in H; subst s'.

Lemma buffon_draw_pair s :
  buffon_draw s =
    ((fst (RNG.next_double s), fst (RNG.next_double (RNG.after 2 s))),
     RNG.after 4 s).
Proof.
  unfold buffon_draw, bind, ret.
  name_double s. name_double (RNG.after 2 s).
  cbn [fst]. rewrite after_add. reflexivity.
Qed.

Lemma circle_draw_steps s : snd (circle_draw s) = RNG.after 2 s.
Proof. rewrite circle_draw_pair. reflexivity. Qed.

Lemma coprime_draw_steps s : snd (coprime_draw s) = RNG.after 2 s.
Proof. rewrite coprime_draw_pair. reflexivity. Qed.

Lemma buffon_draw_steps s : snd (buffon_draw s) = RNG.after 4 s.
Proof. rewrite buffon_draw_pair. reflexivity. Qed.

Lemma circle_trial_draw h s :
  circle_trial h s =
    (if circle_test (fst (circle_draw s)) then wrap64 (h + 1) else h,
     snd (circle_draw s)).
Proof.
  rewrite circle_draw_pair. unfold circle_trial, bind, ret.
  rewrite (next_u32_pair s), (next_u32_pair (RNG.step s)). reflexivity.
Qed.

Lemma coprime_trial_draw h s :
  coprime_trial h s =
    (if coprime_test (fst (coprime_draw s)) then wrap32 (h + 1) else h,
     snd (coprime_draw s)).
Proof.
  rewrite coprime_draw_pair. unfold coprime_trial, bind, ret.
  rewrite (next_u32_pair s), (next_u32_pair (RNG.step s)). reflexivity.
Qed.

Lemma buffon_trial_draw crossing h s :
  buffon_trial crossing h s =
    (if buffon_test crossing (fst (buffon_draw s)) then wrap32 (h + 1) else h,
     snd (buffon_draw s)).
Proof.
  rewrite buffon_draw_pair.
  unfold buffon_trial, bind, ret.
  name_double s. name_double (RNG.after 2 s).
  cbn [fst snd buffon_test]. rewrite after_add. reflexivity.
Qed.

Lemma circle_count_tally trials s :
  trials < 2 ^ 64 ->
  circle_count_uint trials s =
    (tally circle_test (draws circle_draw (Z.to_nat trials) s),
     drained circle_draw (Z.to_nat trials) s).
Proof.
  intros H. unfold circle_count_uint.
  rewrite (for_loop_tally circle_draw circle_test wrap64 64); try lia.
  - reflexivity.
  - intros z Hz. apply wrap64_small, Hz.
  - apply circle_trial_draw.
Qed.

Lemma coprime_count_tally trials s :
  trials < 2 ^ 32 ->
  coprime_count trials s =
    (tally coprime_test (draws coprime_draw (Z.to_nat trials) s),
     drained coprime_draw (Z.to_nat trials) s).
Proof.
  intros H. unfold coprime_count.
  rewrite (for_loop_tally coprime_draw coprime_test wrap32 32); try lia.
  - reflexivity.
  - intros z Hz. apply wrap32_small, Hz.
  - apply coprime_trial_draw.
Qed.

Lemma buffon_count_tally crossing trials s :
  trials < 2 ^ 32 ->
  buffon_count crossing trials s =
    (tally (buffon_test crossing) (draws buffon_draw (Z.to_nat trials) s),
     drained buffon_draw (Z.to_nat trials) s).
Proof.
  intros H. unfold buffon_count.
  rewrite (for_loop_tally buffon_draw (buffon_test crossing) wrap32 32); try lia.
  - reflexivity.
  - intros z Hz. apply wrap32_small, Hz.
  - apply buffon_trial_draw.
Qed.

(** ** The greatest common divisor *)

Lemma euclid_gcd n : forall a b,
  0 <= a -> 0 <= b < 2 ^ Z.of_nat n ->
  euclid (S (2 * n)) a b = Z.gcd a b.
Proof.
  induction n as [|n IH]; intros a b Ha [Hb0 Hb].
  - assert (b = 0) as -> by (change (2 ^ Z.of_nat 0) with 1 in Hb; lia).
    simpl. rewrite Z.gcd_0_r, Z.abs_eq by exact Ha. reflexivity.
  - replace (S (2 * S n)) with (S (S (S (2 * n)))) by lia.
    cbn [euclid].
    destruct (Z.eqb_spec b 0) as [->|Hbnz].
    { rewrite Z.gcd_0_r, Z.abs_eq by exact Ha. reflexivity. }
    pose proof (Z.mod_pos_bound a b ltac:(lia)) as Hr.
    rewrite (Z.gcd_comm a b), <- (Z.gcd_mod a b Hbnz).
    destruct (Z.eqb_spec (a mod b) 0) as [Er|Hrnz].
    { rewrite Er, Z.gcd_0_l, Z.abs_eq by lia. reflexivity. }
    pose proof (Z.mod_pos_bound b (a mod b) ltac:(lia)) as Hr2.
    rewrite <- (Z.gcd_mod b (a mod b) Hrnz), Z.gcd_comm.
    apply IH; [lia|]. split; [lia|].
    assert (Hhalf : b mod (a mod b) <= b - a mod b).
    { pose proof (Z.div_mod b (a mod b) Hrnz) as E.
      assert (1 <= b / (a mod b)) by (apply Z.div_le_lower_bound; lia).
      nia. }
    rewrite Nat2Z.inj_succ, Z.pow_succ_r in Hb by lia. lia.
Qed.

Lemma gcd_correct a b : 0 <= a -> 0 <= b -> gcd a b = Z.gcd a b.
Proof.
  intros Ha Hb. unfold gcd. apply euclid_gcd; [exact Ha|].
  split; [exact Hb|].
  pose proof (Z.log2_nonneg b).
  rewrite Z2Nat.id by lia.
  destruct (Z.eq_dec b 0) as [->|Hnz].
  - simpl. lia.
  - pose proof (Z.log2_spec b ltac:(lia)). lia.
Qed.

Lemma lor_1_odd a : Z.odd (Z.lor a 1) = true.
Proof.
  rewrite <- Z.bit0_odd, Z.lor_spec. apply orb_true_r.
Qed.

Lemma lor_1_nonneg a : 0 <= a -> 0 <= Z.lor a 1.
Proof. intros H. apply Z.lor_nonneg. lia. Qed.

Lemma coprime_draws_odd n s : Forall both_odd (draws coprime_draw n s).
Proof.
  apply (draws_Forall coprime_draw both_odd (fun _ => True)); [|exact I].
  intros s0 _. rewrite coprime_draw_pair. split; [|exact I].
  split; apply lor_1_odd.
Qed.

Lemma coprime_draws_nonneg n s :
  u32 s -> Forall both_nonneg (draws coprime_draw n s).
Proof.
  apply (draws_Forall coprime_draw both_nonneg u32).
  intros s0 Hs0. rewrite coprime_draw_pair.
  pose proof (step_u32 s0 Hs0) as H1. pose proof (step_u32 _ H1) as H2.
  split; [|exact H2].
  split; apply lor_1_nonneg; [apply H1|apply H2].
Qed.

(** C5: every pair the coprimality loop tests has two odd components, there
    is one pair per trial, and the returned count is the number of tested
    pairs whose greatest common divisor is 1. *)
Theorem coprime_count_odd_pairs trials s :
  u32 trials -> u32 s ->
  let pairs := draws coprime_draw (Z.to_nat trials) s in
  Forall both_odd pairs /\
  length pairs = Z.to_nat trials /\
  fst (coprime_count trials s) = tally coprime_pair pairs.
Proof.
  intros Ht Hs pairs. split; [apply coprime_draws_odd|].
  split; [apply draws_length|].
  rewrite coprime_count_tally by apply Ht. cbn [fst].
  apply tally_ext.
  eapply Forall_impl; [|apply (coprime_draws_nonneg _ s Hs)].
  intros [a b] [Ha Hb]. unfold coprime_test, coprime_pair. cbn [fst snd] in *.
  rewrite gcd_correct by assumption. reflexivity.
Qed.

Lemma coprime_count_odd_pairs_witness :
  let pairs := draws coprime_draw (Z.to_nat 3) 123456789 in
  Forall both_odd pairs /\
  length pairs = Z.to_nat 3 /\
  fst (coprime_count 3 123456789) = tally coprime_pair pairs.
Proof.
  apply (coprime_count_odd_pairs 3 123456789); unfold u32; lia.
Defined.

(** ** Bounds, monotonicity and the register after a run *)

Lemma tally_draws_bounds {A} (accept : A -> bool) (draw : RNGM A) trials s :
  0 <= trials ->
  0 <= tally accept (draws draw (Z.to_nat trials) s) <= trials.
Proof.
  intros H. pose proof (tally_bounds accept (draws draw (Z.to_nat trials) s)) as B.
  rewrite draws_length, Z2Nat.id in B by exact H. exact B.
Qed.

(** C8: for a 32-bit trial count and any state, the count each of the three
    loops returns is the unbounded number of accepted trials (the increment
    of the 64-bit, respectively 32-bit, counter never wraps) and lies between
    0 and the trial count. *)
Theorem counts_within_trials crossing trials s :
  u32 trials ->
  let n := Z.to_nat trials in
  (fst (circle_count_uint trials s) = tally circle_test (draws circle_draw n s) /\
   0 <= fst (circle_count_uint trials s) <= trials /\
   u64 (fst (circle_count_uint trials s))) /\
  (fst (coprime_count trials s) = tally coprime_test (draws coprime_draw n s) /\
   0 <= fst (coprime_count trials s) <= trials /\
   u32 (fst (coprime_count trials s))) /\
  (fst (buffon_count crossing trials s) =
     tally (buffon_test crossing) (draws buffon_draw n s) /\
   0 <= fst (buffon_count crossing trials s) <= trials /\
   u32 (fst (buffon_count crossing trials s))).
Proof.
  intros [H0 H1] n.
  rewrite circle_count_tally, coprime_count_tally, buffon_count_tally by lia.
  cbn [fst]. unfold u64, u32.
  pose proof (tally_draws_bounds circle_test circle_draw trials s H0).
  pose proof (tally_draws_bounds coprime_test coprime_draw trials s H0).
  pose proof (tally_draws_bounds (buffon_test crossing) buffon_draw trials s H0).
  subst n. repeat split; try reflexivity; lia.
Qed.

Lemma counts_within_trials_witness :
  let n := Z.to_nat 5 in
  let crossing := fun u v : Q => Qle_bool u v in
  (fst (circle_count_uint 5 123456789) =
     tally circle_test (draws circle_draw n 123456789) /\
   0 <= fst (circle_count_uint 5 123456789) <= 5 /\
   u64 (fst (circle_count_uint 5 123456789))) /\
  (fst (coprime_count 5 123456789) =
     tally coprime_test (draws coprime_draw n 123456789) /\
   0 <= fst (coprime_count 5 123456789) <= 5 /\
   u32 (fst (coprime_count 5 123456789))) /\
  (fst (buffon_count crossing 5 123456789) =
     tally (buffon_test crossing) (draws buffon_draw n 123456789) /\
   0 <= fst (buffon_count crossing 5 123456789) <= 5 /\
   u32 (fst (buffon_count crossing 5 123456789))).
Proof.
  apply (counts_within_trials (fun u v : Q => Qle_bool u v) 5 123456789).
  unfold u32. lia.
Defined.

(** C9: from one starting state, a run of the quarter-circle loop with [m]
    trials draws a prefix of what a run with [n >= m] trials draws, its hit
    count is at most the hit count of the longer run, and a run with no
    trial returns 0. *)
Theorem circle_count_monotone m n s :
  m <= n -> u32 n ->
  (exists rest,
     draws circle_draw (Z.to_nat n) s =
       draws circle_draw (Z.to_nat m) s ++ rest) /\
  fst (circle_count_uint m s) <= fst (circle_count_uint n s) /\
  fst (circle_count_uint 0 s) = 0.
Proof.
  intros Hmn [H0 H1].
  assert (E : Z.to_nat n = (Z.to_nat m + (Z.to_nat n - Z.to_nat m))%nat) by lia.
  pose proof (draws_app circle_draw (Z.to_nat m) (Z.to_nat n - Z.to_nat m) s) as D.
  rewrite <- E in D.
  split; [eexists; exact D|]. split; [|reflexivity].
  rewrite !circle_count_tally by lia. cbn [fst].
  rewrite D, tally_app.
  pose proof (tally_bounds circle_test
    (draws circle_draw (Z.to_nat n - Z.to_nat m)
       (drained circle_draw (Z.to_nat m) s))).
  lia.
Qed.

Lemma circle_count_monotone_witness :
  (exists rest,
     draws circle_draw (Z.to_nat 4) 123456789 =
       draws circle_draw (Z.to_nat 2) 123456789 ++ rest) /\
  fst (circle_count_uint 2 123456789) <= fst (circle_count_uint 4 123456789) /\
  fst (circle_count_uint 0 123456789) = 0.
Proof.
  apply (circle_count_monotone 2 4 123456789); unfold u32; lia.
Defined.

(** C10: the quarter-circle loop and the coprimality loop leave the register
    at the [2 * trials]-fold iterate of the xorshift transition of the
    starting state, the needle loop at the [4 * trials]-fold iterate; with no
    trial each loop returns 0 and leaves the register as it was. *)
Theorem estimators_advance_state crossing trials s :
  snd (circle_count_uint trials s) = RNG.after (2 * Z.to_nat trials) s /\
  snd (coprime_count trials s) = RNG.after (2 * Z.to_nat trials) s /\
  snd (buffon_count crossing trials s) = RNG.after (4 * Z.to_nat trials) s /\
  circle_count_uint 0 s = (0, s) /\
  coprime_count 0 s = (0, s) /\
  buffon_count crossing 0 s = (0, s).
Proof.
  unfold circle_count_uint, coprime_count, buffon_count.
  rewrite (for_loop_drained circle_draw circle_test wrap64 circle_trial
             circle_trial_draw).
  rewrite (for_loop_drained coprime_draw coprime_test wrap32 coprime_trial
             coprime_trial_draw).
  rewrite (for_loop_drained buffon_draw (buffon_test crossing) wrap32
             (buffon_trial crossing) (buffon_trial_draw crossing)).
  rewrite (drained_after circle_draw 2 circle_draw_steps).
  rewrite (drained_after coprime_draw 2 coprime_draw_steps).
  rewrite (drained_after buffon_draw 4 buffon_draw_steps).
  rewrite (Nat.mul_comm 2), (Nat.mul_comm 4).
  repeat split; reflexivity.
Qed.

(** ** The membership test of the quarter circle *)

(** On 32-bit coordinates the squares fit 64 bits and their sum need not:
    the test of the loop accepts the points of the quarter circle and every
    point whose sum of squares reaches [2^64]. *)
Lemma circle_test_wraps x y :
  u32 x -> u32 y ->
  circle_test (x, y) = in_quarter_circle (x, y) || (2 ^ 64 <=? x * x + y * y).
Proof.
  intros [Hx0 Hx1] [Hy0 Hy1]. unfold circle_test, in_quarter_circle, MAX.
  assert (Hxx : 0 <= x * x <= 4294967295 * 4294967295) by nia.
  assert (Hyy : 0 <= y * y <= 4294967295 * 4294967295) by nia.
  rewrite (wrap64_small (x * x)), (wrap64_small (y * y)),
    (wrap64_small (4294967295 * 4294967295)) by (unfold u64; lia).
  destruct (Z.leb_spec (2 ^ 64) (x * x + y * y)) as [Hov|Hfit].
  - rewrite orb_true_r. apply Z.leb_le. unfold wrap64.
    replace (x * x + y * y) with (x * x + y * y - 2 ^ 64 + 1 * 2 ^ 64) by lia.
    rewrite Z.mod_add by lia. rewrite Z.mod_small by lia. lia.
  - rewrite orb_false_r, (wrap64_small (x * x + y * y)) by (unfold u64; lia).
    reflexivity.
Qed.

(** C1: in the first call of the driver, [circle_count_uint(100, rng)] on
    the engine seeded with 123456789, the third trial draws a point outside
    the quarter circle that the 64-bit sum of squares, wrapping, lets the loop
    count; the call returns 100 hits where the exact test accepts 81, and
    the driver prints the estimate 4. *)
Theorem circle_sum_of_squares_wraps :
  let s := RNG.init RNG.default_seed in
  let p := nth 2 (draws circle_draw 100 s) (0, 0) in
  p = (3177519686, 3684138832) /\
  2 ^ 64 <= fst p * fst p + snd p * snd p /\
  in_quarter_circle p = false /\
  circle_test p = true /\
  fst (circle_count_uint 100 s) = 100 /\
  tally in_quarter_circle (draws circle_draw 100 s) = 81 /\
  Driver.circle_pi_est (fst (circle_count_uint 100 s)) 100 = 4%float.
Proof.
  vm_compute. repeat split; try reflexivity. discriminate.
Qed.

(** ** The estimates at a zero count *)

Lemma zero_over x :
  Prim2SF (0 / x) = S754_nan \/ exists sg, Prim2SF (0 / x) = S754_zero sg.
Proof.
  rewrite FloatAxioms.div_spec. change (Prim2SF 0) with (S754_zero false).
  destruct (Prim2SF x) as [sg|sg| |sg m e]; cbn.
  - left. reflexivity.
  - right. eexists. reflexivity.
  - left. reflexivity.
  - right. eexists. reflexivity.
Qed.

Lemma six_finite : exists m e, Prim2SF 6 = S754_finite false m e.
Proof. vm_compute. eexists. eexists. reflexivity. Qed.

(** The square root of 6 over a zero of either sign or over a NaN is no
    finite double. *)
Lemma sqrt_six_over_zero p :
  Prim2SF p = S754_nan \/ (exists sg, Prim2SF p = S754_zero sg) ->
  PrimFloat.sqrt (6 / p) = infinity \/ PrimFloat.sqrt (6 / p) = nan.
Proof.
  intros H. destruct six_finite as [m [e E6]].
  assert (Hq : Prim2SF (PrimFloat.sqrt (6 / p)) = S754_infinity false \/
               Prim2SF (PrimFloat.sqrt (6 / p)) = S754_nan).
  { rewrite FloatAxioms.sqrt_spec, FloatAxioms.div_spec, E6.
    destruct H as [-> | [sg ->]]; cbn.
    - right. reflexivity.
    - destruct sg; cbn; [right|left]; reflexivity. }
  destruct Hq as [Hq|Hq]; [left|right]; apply Prim2SF_inj; rewrite Hq; reflexivity.
Qed.

(** The guard [p > 0.0] is false at a zero of either sign and at a NaN. *)
Lemma guard_at_zero p :
  Prim2SF p = S754_nan \/ (exists sg, Prim2SF p = S754_zero sg) ->
  (if 0 <? p then 2 / p else 0)%float = 0%float.
Proof.
  intros H. rewrite FloatAxioms.ltb_spec. change (Prim2SF 0) with (S754_zero false).
  destruct H as [-> | [sg ->]]; reflexivity.
Qed.

(** At the trial counts of the driver the estimate of the coprimality method
    for a zero count is positive infinity; it is a NaN when the trial count is
    zero as well. *)
Lemma zero_count_estimates_driver :
  Forall (fun n => Driver.coprime_pi_est 0 n = infinity) Driver.Ns /\
  Driver.coprime_pi_est 0 0 = nan.
Proof.
  unfold Driver.Ns. repeat constructor; vm_compute; reflexivity.
Qed.

(** C6: for every trial count, a coprimality hit count of zero gives as
    estimate [sqrt(6.0 / p)] no finite number but one of the two sentinels of
    binary64 arithmetic, positive infinity or NaN, computed without a guard
    and without a failure; a crossing count of zero gives the estimate 0.0
    through the guard [p > 0.0].  The two methods treat a zero count
    differently. *)
Theorem zero_count_estimates n :
  (Driver.coprime_pi_est 0 n = infinity \/ Driver.coprime_pi_est 0 n = nan) /\
  Driver.buffon_pi_est 0 n = 0%float.
Proof.
  unfold Driver.coprime_pi_est, Driver.buffon_pi_est.
  change (Driver.to_double 0) with 0%float. cbv zeta.
  pose proof (zero_over (Driver.to_double n)) as H.
  split; [apply sqrt_six_over_zero|apply guard_at_zero]; exact H.
Qed.

(** ** Determinism *)

Lemma driven_functional s cs os1 s1 :
  driven s cs os1 s1 ->
  forall os2 s2, driven s cs os2 s2 -> os1 = os2 /\ s1 = s2.
Proof.
  induction 1 as [s|s c o sa cs os sb Hp Hd IH]; intros os2 s2 H2.
  - inversion H2; subst. split; reflexivity.
  - inversion H2 as [|s' c' o' sa' cs' os' sb' Hp' Hd']; subst.
    rewrite Hp in Hp'. inversion Hp'; subst.
    destruct (IH _ _ Hd') as [-> ->]. split; reflexivity.
Qed.

(** Every call sequence has a run: the one [drive] computes. *)
Lemma driven_drive cs : forall s,
  driven s cs (fst (drive cs s)) (snd (drive cs s)).
Proof.
  induction cs as [|c cs IH]; intros s; [constructor|].
  simpl drive. unfold bind, ret.
  destruct (perform c s) as [o s1] eqn:Ep.
  specialize (IH s1). destruct (drive cs s1) as [os s2].
  cbn [fst snd] in *. econstructor; eassumption.
Qed.

Lemma word_at_S s0 i : word_at s0 (S i) = RNG.step (word_at s0 i).
Proof. rewrite step_spec. reflexivity. Qed.

Lemma word_at_u32 s0 i : u32 s0 -> u32 (word_at s0 i).
Proof.
  intros H. induction i as [|i IH]; [exact H|].
  rewrite word_at_S. apply step_u32, IH.
Qed.

Lemma perform_u32 s : perform Call_u32 s = (Out_u32 (RNG.step s), RNG.step s).
Proof. unfold perform, bind, ret. rewrite next_u32_pair. reflexivity. Qed.

Lemma perform_double s :
  u32 s ->
  perform Call_double s =
    (Out_double
       (Qmake (RNG.step s / 2 ^ 6 * 2 ^ 27 + RNG.step (RNG.step s) / 2 ^ 5)
          (2 ^ 53)),
     RNG.step (RNG.step s)).
Proof.
  intros Hs. destruct (next_val_spec s Hs) as [E _].
  unfold perform, bind, ret. rewrite next_double_pair, E. reflexivity.
Qed.

(** A run that starts [pos] outputs into the stream of [s0] answers what
    the stream dictates and ends as many outputs further as its calls
    take. *)
Lemma driven_stream s0 cs :
  u32 s0 ->
  forall pos os s',
    driven (word_at s0 pos) cs os s' ->
    os = stream_outputs s0 pos cs /\
    s' = word_at s0 (outputs_taken_by cs + pos).
Proof.
  intros H0. induction cs as [|c cs IH]; intros pos os s' Hd.
  - inversion Hd; subst. split; reflexivity.
  - inversion Hd as [|sa ca o s1 cs' os' sb Hp Hrest]; subst.
    pose proof (word_at_u32 s0 pos H0) as Hu.
    destruct c.
    + rewrite perform_u32 in Hp. inversion Hp; subst.
      rewrite <- word_at_S in *. destruct (IH _ _ _ Hrest) as [-> ->].
      split; [reflexivity|]. f_equal. unfold outputs_taken_by. simpl. lia.
    + rewrite (perform_double _ Hu) in Hp. inversion Hp; subst.
      rewrite <- !word_at_S in *. destruct (IH _ _ _ Hrest) as [-> ->].
      split; [reflexivity|]. f_equal. unfold outputs_taken_by. simpl. lia.
Qed.

(** C7: two engines constructed with the same seed and driven with the same
    sequence of [next_u32] and [next_double] calls give the same sequence of
    outputs and end in the same state: the outputs are those the xorshift
    stream of the constructed register dictates for the call sequence, and
    the final state is the word of that stream as many outputs in as the
    calls take. *)
Theorem engines_deterministic seed1 seed2 cs os1 s1 os2 s2 :
  u32 seed1 ->
  seed1 = seed2 ->
  driven (RNG.init seed1) cs os1 s1 ->
  driven (RNG.init seed2) cs os2 s2 ->
  (os1 = os2 /\ s1 = s2) /\
  os1 = stream_outputs (RNG.init seed1) 0 cs /\
  s1 = word_at (RNG.init seed1) (outputs_taken_by cs).
Proof.
  intros Hu <- H1 H2. pose proof (init_u32 seed1 Hu) as H0.
  destruct (driven_stream _ cs H0 0%nat _ _ H1) as [E1 F1].
  destruct (driven_stream _ cs H0 0%nat _ _ H2) as [E2 F2].
  rewrite Nat.add_0_r in F1, F2.
  repeat split; congruence.
Qed.

Lemma engines_deterministic_witness :
  ([Out_u32 2714967881; Out_double (Qmake 4695131988170072 (2 ^ 53))] =
   [Out_u32 2714967881; Out_double (Qmake 4695131988170072 (2 ^ 53))] /\
   1250077441 = 1250077441) /\
  [Out_u32 2714967881; Out_double (Qmake 4695131988170072 (2 ^ 53))] =
    stream_outputs (RNG.init 123456789) 0 [Call_u32; Call_double] /\
  1250077441 =
    word_at (RNG.init 123456789) (outputs_taken_by [Call_u32; Call_double]).
Proof.
  apply (engines_deterministic 123456789 123456789 [Call_u32; Call_double]
           _ _ _ _).
  - unfold u32. lia.
  - reflexivity.
  - apply (driven_call _ _ _ 2714967881); [reflexivity|].
    apply (driven_call _ _ _ 1250077441); [reflexivity|].
    apply driven_done.
  - apply (driven_call _ _ _ 2714967881); [reflexivity|].
    apply (driven_call _ _ _ 1250077441); [reflexivity|].
    apply driven_done.
Defined.

(** * Further properties of the generator *)

(** ** The zero register *)

Lemma step_zero : RNG.step 0 = 0.
Proof. reflexivity. Qed.

Lemma after_S n s : RNG.after (S n) s = RNG.step (RNG.after n s).
Proof. reflexivity. Qed.

Lemma after_zero n : RNG.after n 0 = 0.
Proof.
  induction n as [|n IH]; [reflexivity|].
  rewrite after_S, IH. apply step_zero.
Qed.

(** ** The transition is one to one *)

Lemma xor_shl_lxor k x y :
  0 <= k -> xor_shl k (Z.lxor x y) = Z.lxor (xor_shl k x) (xor_shl k y).
Proof.
  intros Hk. unfold xor_shl.
  rewrite <- !Z.shiftl_mul_pow2, <- !Z.land_ones by lia.
  rewrite Z.shiftl_lxor.
  apply Z.bits_inj'. intros i Hi.
  rewrite ?Z.lxor_spec, ?Z.land_spec, ?Z.lxor_spec.
  destruct (Z.testbit x i), (Z.testbit y i), (Z.testbit (Z.shiftl x k) i),
    (Z.testbit (Z.shiftl y k) i), (Z.testbit (Z.ones 32) i); reflexivity.
Qed.

Lemma xor_shr_lxor k x y :
  0 <= k -> xor_shr k (Z.lxor x y) = Z.lxor (xor_shr k x) (xor_shr k y).
Proof.
  intros Hk. unfold xor_shr.
  rewrite <- !Z.shiftr_div_pow2 by lia.
  rewrite Z.shiftr_lxor.
  apply Z.bits_inj'. intros i Hi.
  rewrite ?Z.lxor_spec.
  destruct (Z.testbit x i), (Z.testbit y i), (Z.testbit (Z.shiftr x k) i),
    (Z.testbit (Z.shiftr y k) i); reflexivity.
Qed.

Lemma xor_shl_inj k x y :
  0 < k -> Z.gcd (2 ^ 32) (2 ^ k - 1) = 1 -> u32 x -> u32 y ->
  xor_shl k x = xor_shl k y -> x = y.
Proof.
  intros Hk Hodd Hx Hy E. apply Z.lxor_eq.
  apply (xor_shl_zero k); [exact Hk|exact Hodd|apply lxor_u32; assumption|].
  rewrite xor_shl_lxor by lia. rewrite E. apply Z.lxor_nilpotent.
Qed.

Lemma xor_shr_inj k x y :
  0 < k -> u32 x -> u32 y -> xor_shr k x = xor_shr k y -> x = y.
Proof.
  intros Hk Hx Hy E. apply Z.lxor_eq.
  apply (xor_shr_zero k); [exact Hk|apply lxor_u32; assumption|].
  rewrite xor_shr_lxor by lia. rewrite E. apply Z.lxor_nilpotent.
Qed.

Lemma step_inj s t : u32 s -> u32 t -> RNG.step s = RNG.step t -> s = t.
Proof.
  intros Hs Ht E. rewrite !step_spec in E. unfold xorshift_spec in E.
  apply xor_shl_inj in E; [|lia|reflexivity| |].
  - apply xor_shr_inj in E; [|lia| |].
    + apply xor_shl_inj in E; [exact E|lia|reflexivity|exact Hs|exact Ht].
    + apply xor_shl_u32, Hs.
    + apply xor_shl_u32, Ht.
  - apply xor_shr_u32; [lia|]. apply xor_shl_u32, Hs.
  - apply xor_shr_u32; [lia|]. apply xor_shl_u32, Ht.
Qed.

(** X1: on 32-bit registers the output of [next_u32] determines the register
    it was drawn from: two different registers never give the same word. *)
Theorem next_u32_one_to_one s t :
  u32 s -> u32 t ->
  fst (RNG.next_u32 s) = fst (RNG.next_u32 t) -> s = t.
Proof.
  intros Hs Ht E. rewrite !next_u32_pair in E. cbn [fst] in E.
  apply step_inj; assumption.
Qed.

Lemma next_u32_one_to_one_witness : 123456789 = 123456789.
Proof.
  apply (next_u32_one_to_one 123456789 123456789);
    [unfold u32; lia|unfold u32; lia|reflexivity].
Defined.

(** X2: an engine whose register is zero stays at zero: every [next_u32]
    call returns 0 and every [next_double] call returns 0.0. *)
Theorem zero_register_absorbing n :
  RNG.after n 0 = 0 /\
  RNG.next_u32 (RNG.after n 0) = (0, 0) /\
  RNG.next_double (RNG.after n 0) = (Qmake 0 (2 ^ 53), 0).
Proof.
  rewrite after_zero. repeat split; reflexivity.
Qed.

(** ** The register comes back *)

Lemma orbit_S n s : orbit (S n) s = orbit n s ++ [RNG.after n s].
Proof. unfold orbit. rewrite seq_S, map_app. reflexivity. Qed.

Lemma orbit_length n s : length (orbit n s) = n.
Proof. unfold orbit. rewrite length_map, length_seq. reflexivity. Qed.

Lemma in_orbit n s z :
  In z (orbit n s) <-> exists i, (i < n)%nat /\ RNG.after i s = z.
Proof.
  unfold orbit. rewrite in_map_iff. split.
  - intros [i [E Hi]]. apply in_seq in Hi. exists i. split; [lia|exact E].
  - intros [i [Hi E]]. exists i. split; [exact E|]. apply in_seq. lia.
Qed.

(** Either the first [n] registers are pairwise different or two of them
    are equal. *)
Lemma orbit_repeats n s :
  NoDup (orbit n s) \/
  exists i j, (i < j < n)%nat /\ RNG.after i s = RNG.after j s.
Proof.
  induction n as [|n [IH|[i [j [Hij E]]]]].
  - left. constructor.
  - destruct (in_dec Z.eq_dec (RNG.after n s) (orbit n s)) as [Hin|Hout].
    + right. apply in_orbit in Hin. destruct Hin as [i [Hi E]].
      exists i, n. split; [lia|exact E].
    + left. rewrite orbit_S. apply NoDup_app; [exact IH|repeat constructor; intros []|].
      intros a Ha [<-|[]]. contradiction.
  - right. exists i, j. split; [lia|exact E].
Qed.

Lemma after_cancel i d s :
  u32 s -> RNG.after i s = RNG.after (i + d) s -> s = RNG.after d s.
Proof.
  intros Hs. induction i as [|i IH]; intros E; [exact E|].
  apply IH. change (S i + d)%nat with (S (i + d)) in E.
  rewrite !after_S in E. apply step_inj in E; [exact E| |]; apply after_u32, Hs.
Qed.

(** A register whose iterates stay in a finite list of words comes back to
    itself within as many calls as the list is long. *)
Lemma after_returns (dom : list Z) s :
  u32 s -> (forall i, In (RNG.after i s) dom) ->
  exists k, (0 < k <= length dom)%nat /\ RNG.after k s = s.
Proof.
  intros Hs Hdom.
  destruct (orbit_repeats (S (length dom)) s) as [Hnd|[i [j [Hij E]]]].
  - exfalso. apply NoDup_incl_length with (l' := dom) in Hnd.
    + rewrite orbit_length in Hnd. lia.
    + intros z Hz. apply in_orbit in Hz. destruct Hz as [i [_ <-]]. apply Hdom.
  - exists (j - i)%nat. split; [lia|]. symmetry.
    apply (after_cancel i); [exact Hs|].
    replace (i + (j - i))%nat with j by lia. exact E.
Qed.

(** The nonzero 32-bit words. *)
Lemma nonzero_words z :
  u32 z -> z <> 0 ->
  In z (map Z.of_nat (seq 1 (Z.to_nat (2 ^ 32 - 1)))).
Proof.
  intros [H0 H1] Hnz. apply in_map_iff. exists (Z.to_nat z).
  split; [lia|]. apply in_seq. lia.
Qed.

(** X3: from every constructed engine the register comes back to its
    constructed value after some number [k] of [next_u32] calls, with
    [0 < k <= 2^32 - 1]: the stream of outputs is periodic from its start. *)
Theorem constructed_register_returns seed :
  u32 seed ->
  exists k, 0 < Z.of_nat k <= 2 ^ 32 - 1 /\
            RNG.after k (RNG.init seed) = RNG.init seed.
Proof.
  intros Hseed. pose proof (init_u32 seed Hseed) as Hs.
  destruct (after_returns (map Z.of_nat (seq 1 (Z.to_nat (2 ^ 32 - 1))))
              (RNG.init seed) Hs) as [k [Hk E]].
  - intros i. apply nonzero_words; [apply after_u32, Hs|].
    apply after_nonzero; [exact Hs|apply init_nonzero].
  - rewrite length_map, length_seq in Hk. exists k. split; [lia|exact E].
Qed.

Lemma constructed_register_returns_witness :
  exists k, 0 < Z.of_nat k <= 2 ^ 32 - 1 /\
            RNG.after k (RNG.init 0) = RNG.init 0.
Proof.
  apply (constructed_register_returns 0). unfold u32. lia.
Defined.

(** * Further properties of the loops *)

Lemma drained_add {A} (draw : RNGM A) m k : forall s,
  drained draw (m + k) s = drained draw k (drained draw m s).
Proof.
  induction m as [|m IH]; intros s; [reflexivity|]. simpl. apply IH.
Qed.

Lemma draws_seq {A} (draw : RNGM A) n : forall s,
  draws draw n s = map (fun i => fst (draw (drained draw i s))) (seq 0 n).
Proof.
  induction n as [|n IH]; intros s; [reflexivity|].
  simpl draws. rewrite <- cons_seq, <- seq_shift. simpl map. rewrite map_map.
  simpl drained. rewrite <- (IH (snd (draw s))).
  destruct (draw s) as [p s']. reflexivity.
Qed.

Lemma tally_map {A B} (accept : B -> bool) (g : A -> B) l :
  tally accept (map g l) = tally (fun x => accept (g x)) l.
Proof.
  induction l as [|x l IH]; [reflexivity|].
  simpl map. rewrite !tally_cons, IH. reflexivity.
Qed.

Lemma tally_orb {A} (f g : A -> bool) l :
  Forall (fun p => f p && g p = false) l ->
  tally (fun p => f p || g p) l = tally f l + tally g l.
Proof.
  induction 1 as [|p l Hp _ IH]; [reflexivity|].
  rewrite !tally_cons, IH. cbv beta.
  destruct (f p), (g p); cbn [orb andb] in *; try discriminate; lia.
Qed.

Lemma circle_draws_u32 n s :
  u32 s -> Forall (fun p => u32 (fst p) /\ u32 (snd p)) (draws circle_draw n s).
Proof.
  apply (draws_Forall circle_draw (fun p => u32 (fst p) /\ u32 (snd p)) u32).
  intros s0 Hs0. rewrite circle_draw_pair.
  pose proof (step_u32 s0 Hs0) as H1. pose proof (step_u32 _ H1) as H2.
  split; [split; assumption|exact H2].
Qed.

(** X4: in a trial of the quarter-circle loop the second coordinate is the
    xorshift transform of the first, and the trial is counted exactly when
    the sum of the squares is at most [MAX^2] or reaches [2^64], where the
    64-bit sum wraps. *)
Theorem circle_trial_accepts hits s :
  u32 s ->
  let x := fst (RNG.next_u32 s) in
  let y := fst (RNG.next_u32 x) in
  circle_trial hits s =
    (if (x * x + y * y <=? MAX * MAX) || (2 ^ 64 <=? x * x + y * y)
     then wrap64 (hits + 1) else hits, y).
Proof.
  intros Hs x y. rewrite circle_trial_draw, circle_draw_pair. cbn [fst snd].
  pose proof (step_u32 s Hs) as H1. pose proof (step_u32 _ H1) as H2.
  rewrite circle_test_wraps by assumption. reflexivity.
Qed.

Lemma circle_trial_accepts_witness :
  let x := fst (RNG.next_u32 3820100336) in
  let y := fst (RNG.next_u32 x) in
  circle_trial 2 3820100336 =
    (if (x * x + y * y <=? MAX * MAX) || (2 ^ 64 <=? x * x + y * y)
     then wrap64 (2 + 1) else 2, y).
Proof.
  apply (circle_trial_accepts 2 3820100336). unfold u32. lia.
Defined.

(** X5: the count the quarter-circle loop returns is the number of drawn
    points inside the quarter circle plus the number of drawn points whose
    sum of squares reaches [2^64]; it is never below the exact count. *)
Theorem circle_count_overcounts trials s :
  u32 trials -> u32 s ->
  let pts := draws circle_draw (Z.to_nat trials) s in
  fst (circle_count_uint trials s) =
    tally in_quarter_circle pts +
    tally (fun p => 2 ^ 64 <=? fst p * fst p + snd p * snd p) pts /\
  tally in_quarter_circle pts <= fst (circle_count_uint trials s).
Proof.
  intros Ht Hs pts.
  assert (E : fst (circle_count_uint trials s) =
    tally in_quarter_circle pts +
    tally (fun p => 2 ^ 64 <=? fst p * fst p + snd p * snd p) pts).
  { rewrite circle_count_tally by (destruct Ht; lia). cbn [fst]. fold pts.
    rewrite <- tally_orb.
    - apply tally_ext. eapply Forall_impl; [|apply (circle_draws_u32 _ s Hs)].
      intros [x y] [Hx Hy]. cbn [fst snd] in *. apply circle_test_wraps; assumption.
    - eapply Forall_impl; [|apply (circle_draws_u32 _ s Hs)].
      intros [x y] _. cbn [fst snd in_quarter_circle]. unfold MAX.
      destruct (Z.leb_spec (x * x + y * y) (4294967295 * 4294967295));
        destruct (Z.leb_spec (2 ^ 64) (x * x + y * y)); try reflexivity; lia. }
  split; [exact E|]. rewrite E.
  pose proof (tally_bounds (fun p => 2 ^ 64 <=? fst p * fst p + snd p * snd p) pts).
  lia.
Qed.

Lemma circle_count_overcounts_witness :
  let pts := draws circle_draw (Z.to_nat 5) 123456789 in
  fst (circle_count_uint 5 123456789) =
    tally in_quarter_circle pts +
    tally (fun p => 2 ^ 64 <=? fst p * fst p + snd p * snd p) pts /\
  tally in_quarter_circle pts <= fst (circle_count_uint 5 123456789).
Proof.
  apply (circle_count_overcounts 5 123456789); unfold u32; lia.
Defined.

(** ** Consecutive calls on one engine *)

Section Additive.

Context {A : Type}.
Variables (draw : RNGM A) (accept : A -> bool).
Variable count : Z -> RNGM Z.

Hypothesis count_tally : forall trials s,
  trials < 2 ^ 32 ->
  count trials s =
    (tally accept (draws draw (Z.to_nat trials) s),
     drained draw (Z.to_nat trials) s).

(** Two calls in a row count what one call with the sum of the trial
    counts counts, and leave the same register. *)
Lemma count_additive m k s :
  0 <= m -> 0 <= k -> m + k < 2 ^ 32 ->
  count (m + k) s =
    (fst (count m s) + fst (count k (snd (count m s))),
     snd (count k (snd (count m s)))).
Proof.
  intros Hm Hk Hlt. rewrite !count_tally by lia. cbn [fst snd].
  rewrite Z2Nat.inj_add by lia. rewrite draws_app, tally_app, drained_add.
  reflexivity.
Qed.

End Additive.

Lemma circle_count_tally32 trials s :
  trials < 2 ^ 32 ->
  circle_count_uint trials s =
    (tally circle_test (draws circle_draw (Z.to_nat trials) s),
     drained circle_draw (Z.to_nat trials) s).
Proof. intros H. apply circle_count_tally. lia. Qed.

(** X6: on each of the three loops, a call with [m] trials followed by a
    call with [k] trials on the same engine returns counts whose sum is the
    count of a single call with [m + k] trials from the starting register,
    and leaves the register that call leaves. *)
Theorem counts_additive crossing m k s :
  0 <= m -> 0 <= k -> m + k < 2 ^ 32 ->
  circle_count_uint (m + k) s =
    (fst (circle_count_uint m s) +
       fst (circle_count_uint k (snd (circle_count_uint m s))),
     snd (circle_count_uint k (snd (circle_count_uint m s)))) /\
  coprime_count (m + k) s =
    (fst (coprime_count m s) +
       fst (coprime_count k (snd (coprime_count m s))),
     snd (coprime_count k (snd (coprime_count m s)))) /\
  buffon_count crossing (m + k) s =
    (fst (buffon_count crossing m s) +
       fst (buffon_count crossing k (snd (buffon_count crossing m s))),
     snd (buffon_count crossing k (snd (buffon_count crossing m s)))).
Proof.
  intros Hm Hk Hlt. split; [|split].
  - apply (count_additive circle_draw circle_test circle_count_uint
             circle_count_tally32); assumption.
  - apply (count_additive coprime_draw coprime_test coprime_count
             coprime_count_tally); assumption.
  - apply (count_additive buffon_draw (buffon_test crossing)
             (buffon_count crossing) (buffon_count_tally crossing)); assumption.
Qed.

Lemma counts_additive_witness :
  let crossing := fun u v : Q => Qle_bool u v in
  circle_count_uint (2 + 3) 123456789 =
    (fst (circle_count_uint 2 123456789) +
       fst (circle_count_uint 3 (snd (circle_count_uint 2 123456789))),
     snd (circle_count_uint 3 (snd (circle_count_uint 2 123456789)))) /\
  coprime_count (2 + 3) 123456789 =
    (fst (coprime_count 2 123456789) +
       fst (coprime_count 3 (snd (coprime_count 2 123456789))),
     snd (coprime_count 3 (snd (coprime_count 2 123456789)))) /\
  buffon_count crossing (2 + 3) 123456789 =
    (fst (buffon_count crossing 2 123456789) +
       fst (buffon_count crossing 3 (snd (buffon_count crossing 2 123456789))),
     snd (buffon_count crossing 3 (snd (buffon_count crossing 2 123456789)))).
Proof.
  apply (counts_additive (fun u v : Q => Qle_bool u v) 2 3 123456789); lia.
Defined.

(** ** What a trial draws *)

(** X7: the count [circle_count_uint] returns is the number of trials [i]
    (from 0) whose test accepts the outputs number [2i + 1] and [2i + 2] of
    the engine, and the count [coprime_count] returns is the number of trials
    [i] for which these two outputs, each with its lowest bit set, have the
    greatest common divisor 1: the trials of a call read consecutive,
    disjoint pairs of the stream. *)
Theorem counts_read_stream_pairs trials s :
  u32 trials ->
  fst (circle_count_uint trials s) =
    tally (fun i => circle_test (RNG.after (2 * i + 1) s,
                                 RNG.after (2 * i + 2) s))
          (seq 0 (Z.to_nat trials)) /\
  fst (coprime_count trials s) =
    tally (fun i => gcd (Z.lor (RNG.after (2 * i + 1) s) 1)
                        (Z.lor (RNG.after (2 * i + 2) s) 1) =? 1)
          (seq 0 (Z.to_nat trials)).
Proof.
  intros [H0 H1].
  assert (P1 : forall i, RNG.step (RNG.after (i * 2) s) = RNG.after (2 * i + 1) s).
  { intros i. rewrite <- after_S. f_equal. lia. }
  assert (P2 : forall i,
             RNG.step (RNG.step (RNG.after (i * 2) s)) = RNG.after (2 * i + 2) s).
  { intros i. rewrite <- !after_S. f_equal. lia. }
  rewrite circle_count_tally32, coprime_count_tally by exact H1. cbn [fst].
  rewrite !draws_seq, !tally_map. split.
  - apply tally_ext, Forall_forall. intros i _.
    rewrite (drained_after circle_draw 2 circle_draw_steps).
    rewrite circle_draw_pair. cbn [fst]. rewrite P2, P1. reflexivity.
  - apply tally_ext, Forall_forall. intros i _.
    rewrite (drained_after coprime_draw 2 coprime_draw_steps).
    rewrite coprime_draw_pair. cbn [fst coprime_test]. rewrite P2, P1. reflexivity.
Qed.

Lemma counts_read_stream_pairs_witness :
  fst (circle_count_uint 3 123456789) =
    tally (fun i => circle_test (RNG.after (2 * i + 1) 123456789,
                                 RNG.after (2 * i + 2) 123456789))
          (seq 0 (Z.to_nat 3)) /\
  fst (coprime_count 3 123456789) =
    tally (fun i => gcd (Z.lor (RNG.after (2 * i + 1) 123456789) 1)
                        (Z.lor (RNG.after (2 * i + 2) 123456789) 1) =? 1)
          (seq 0 (Z.to_nat 3)).
Proof.
  apply (counts_read_stream_pairs 3 123456789). unfold u32. lia.
Defined.

(** ** Forcing the draws odd *)

Lemma lor_1_even q : Z.lor (2 * q) 1 = 2 * q + 1.
Proof.
  replace (2 * q) with (Z.shiftl q 1)
    by (rewrite Z.shiftl_mul_pow2 by lia; lia).
  rewrite lor_shiftl_add by lia.
  rewrite Z.shiftl_mul_pow2 by lia. reflexivity.
Qed.

Lemma lor_1_cases x : Z.lor x 1 = if Z.odd x then x else x + 1.
Proof.
  destruct (Z.odd x) eqn:E.
  - apply Z.odd_spec in E. destruct E as [q ->].
    rewrite <- lor_1_even, <- Z.lor_assoc. reflexivity.
  - rewrite <- Z.negb_even in E. apply negb_false_iff, Z.even_spec in E.
    destruct E as [q ->]. apply lor_1_even.
Qed.

(** X8: a trial of [coprime_count] from a 32-bit register draws the outputs
    [x] and [y], replaces an even output by the next integer and keeps an odd
    one, counts the trial exactly when the two resulting numbers have the
    greatest common divisor 1, and leaves the register at [y]; both numbers
    are 32-bit words and at least 1. *)
Theorem coprime_trial_next_odd hits s :
  u32 s ->
  let x := fst (RNG.next_u32 s) in
  let y := fst (RNG.next_u32 x) in
  let next_odd := fun z => if Z.odd z then z else z + 1 in
  coprime_trial hits s =
    (if Z.gcd (next_odd x) (next_odd y) =? 1 then wrap32 (hits + 1) else hits,
     y) /\
  (1 <= next_odd x /\ u32 (next_odd x)) /\
  (1 <= next_odd y /\ u32 (next_odd y)).
Proof.
  intros Hs x y next_odd.
  assert (Hx : u32 x) by apply (step_u32 s Hs).
  assert (Hy : u32 y) by apply (step_u32 x Hx).
  assert (B : forall z, u32 z -> 1 <= next_odd z /\ u32 (next_odd z)).
  { intros z [H0 H1]. unfold next_odd, u32. destruct (Z.odd z) eqn:E.
    - apply Z.odd_spec in E. destruct E as [q ->]. lia.
    - rewrite <- Z.negb_even in E. apply negb_false_iff, Z.even_spec in E.
      destruct E as [q ->]. lia. }
  destruct (B x Hx) as [Bx _]. destruct (B y Hy) as [By _].
  split; [|split; apply B; assumption].
  rewrite coprime_trial_draw, coprime_draw_pair. cbn [fst snd coprime_test].
  rewrite !lor_1_cases. rewrite gcd_correct; [reflexivity| |].
  - apply Z.le_trans with 1; [lia|exact Bx].
  - apply Z.le_trans with 1; [lia|exact By].
Qed.

Lemma coprime_trial_next_odd_witness :
  let x := fst (RNG.next_u32 123456789) in
  let y := fst (RNG.next_u32 x) in
  let next_odd := fun z => if Z.odd z then z else z + 1 in
  coprime_trial 4 123456789 =
    (if Z.gcd (next_odd x) (next_odd y) =? 1 then wrap32 (4 + 1) else 4, y) /\
  (1 <= next_odd x /\ u32 (next_odd x)) /\
  (1 <= next_odd y /\ u32 (next_odd y)).
Proof.
  apply (coprime_trial_next_odd 4 123456789). unfold u32. lia.
Defined.

(** ** The doubles of the needle loop *)

Lemma next_double_in_unit s :
  u32 s ->
  (0 <= fst (RNG.next_double s) /\ fst (RNG.next_double s) < 1)%Q /\
  Qden (fst (RNG.next_double s)) = (2 ^ 53)%positive.
Proof.
  intros Hs. destruct (next_val_spec s Hs) as [E Hval].
  rewrite next_double_pair, E. cbn [fst]. split; [|reflexivity].
  unfold Qle, Qlt. cbn [Qnum Qden].
  change (Z.pos (2 ^ 53)) with (2 ^ 53). lia.
Qed.

(** X9: the count [buffon_count] returns is the number of trials [i]
    (from 0) at which the crossing test accepts the double [next_double]
    returns [4i] outputs into the stream, as the position, and the double it
    returns [4i + 2] outputs into the stream, as the angle; each of these
    doubles is at least 0, below 1 and of the form [val / 2^53]. *)
Theorem buffon_count_unit_square crossing trials s :
  u32 trials -> u32 s ->
  let u := fun i => fst (RNG.next_double (RNG.after (4 * i) s)) in
  let v := fun i => fst (RNG.next_double (RNG.after (4 * i + 2) s)) in
  fst (buffon_count crossing trials s) =
    tally (fun i => crossing (u i) (v i)) (seq 0 (Z.to_nat trials)) /\
  forall i,
    ((0 <= u i /\ u i < 1)%Q /\ Qden (u i) = (2 ^ 53)%positive) /\
    ((0 <= v i /\ v i < 1)%Q /\ Qden (v i) = (2 ^ 53)%positive).
Proof.
  intros [H0 H1] Hs u v. split.
  - rewrite (buffon_count_tally crossing) by exact H1. cbn [fst].
    rewrite draws_seq, tally_map.
    apply tally_ext, Forall_forall. intros i _.
    rewrite (drained_after buffon_draw 4 buffon_draw_steps).
    rewrite buffon_draw_pair. cbn [fst buffon_test]. rewrite after_add.
    unfold u, v.
    replace (i * 4)%nat with (4 * i)%nat by lia.
    replace (2 + 4 * i)%nat with (4 * i + 2)%nat by lia. reflexivity.
  - intros i. split; apply next_double_in_unit; apply after_u32, Hs.
Qed.

Lemma buffon_count_unit_square_witness :
  let crossing := fun p q : Q => Qle_bool p q in
  let u := fun i => fst (RNG.next_double (RNG.after (4 * i) 123456789)) in
  let v := fun i => fst (RNG.next_double (RNG.after (4 * i + 2) 123456789)) in
  fst (buffon_count crossing 2 123456789) =
    tally (fun i => crossing (u i) (v i)) (seq 0 (Z.to_nat 2)) /\
  forall i,
    ((0 <= u i /\ u i < 1)%Q /\ Qden (u i) = (2 ^ 53)%positive) /\
    ((0 <= v i /\ v i < 1)%Q /\ Qden (v i) = (2 ^ 53)%positive).
Proof.
  apply (buffon_count_unit_square (fun p q : Q => Qle_bool p q) 2 123456789);
    unfold u32; lia.
Defined.

(** * The tables of the driver *)

Lemma circle_count_state trials s :
  snd (circle_count_uint trials s) = RNG.after (2 * Z.to_nat trials) s.
Proof.
  unfold circle_count_uint.
  rewrite (for_loop_drained circle_draw circle_test wrap64 circle_trial
             circle_trial_draw).
  rewrite (drained_after circle_draw 2 circle_draw_steps).
  rewrite Nat.mul_comm. reflexivity.
Qed.

Lemma coprime_count_state trials s :
  snd (coprime_count trials s) = RNG.after (2 * Z.to_nat trials) s.
Proof.
  unfold coprime_count.
  rewrite (for_loop_drained coprime_draw coprime_test wrap32 coprime_trial
             coprime_trial_draw).
  rewrite (drained_after coprime_draw 2 coprime_draw_steps).
  rewrite Nat.mul_comm. reflexivity.
Qed.

Lemma buffon_count_state crossing trials s :
  snd (buffon_count crossing trials s) = RNG.after (4 * Z.to_nat trials) s.
Proof.
  unfold buffon_count.
  rewrite (for_loop_drained buffon_draw (buffon_test crossing) wrap32
             (buffon_trial crossing) (buffon_trial_draw crossing)).
  rewrite (drained_after buffon_draw 4 buffon_draw_steps).
  rewrite Nat.mul_comm. reflexivity.
Qed.

Lemma method1_run n s :
  method1 n s =
    (Row n (fst (circle_count_uint n s))
       (Driver.to_double (fst (circle_count_uint n s)) / Driver.to_double n)
       (4 * (Driver.to_double (fst (circle_count_uint n s)) / Driver.to_double n)),
     RNG.after (2 * Z.to_nat n) s).
Proof.
  rewrite <- circle_count_state. unfold method1, bind, ret.
  destruct (circle_count_uint n s) as [hits s']. reflexivity.
Qed.

Lemma method2_run n s :
  method2 n s =
    (Row n (fst (coprime_count n s))
       (Driver.to_double (fst (coprime_count n s)) / Driver.to_double n)
       (PrimFloat.sqrt
          (6 / (Driver.to_double (fst (coprime_count n s)) / Driver.to_double n))),
     RNG.after (2 * Z.to_nat n) s).
Proof.
  rewrite <- coprime_count_state. unfold method2, bind, ret.
  destruct (coprime_count n s) as [hits s']. reflexivity.
Qed.

Lemma method3_run crossing n s :
  method3 crossing n s =
    (Row n (fst (buffon_count crossing n s))
       (Driver.to_double (fst (buffon_count crossing n s)) / Driver.to_double n)
       (let p := (Driver.to_double (fst (buffon_count crossing n s)) /
                  Driver.to_double n)%float in
        if (0 <? p)%float then (2 / p)%float else 0%float),
     RNG.after (4 * Z.to_nat n) s).
Proof.
  rewrite <- (buffon_count_state crossing). unfold method3, bind, ret.
  destruct (buffon_count crossing n s) as [crosses s']. reflexivity.
Qed.

Section ForEach.

Context {A : Type}.
Variables (f : Z -> RNGM A) (k : nat).

Hypothesis f_state : forall n s, snd (f n s) = RNG.after (k * Z.to_nat n) s.

Lemma for_each_state l : forall s,
  snd (for_each l f s) = RNG.after (k * trials_of l) s.
Proof.
  induction l as [|n l IH]; intros s.
  - unfold trials_of. simpl. rewrite Nat.mul_0_r. reflexivity.
  - simpl for_each. unfold bind, ret.
    pose proof (f_state n s) as E. destruct (f n s) as [r s1]. cbn [snd] in E.
    pose proof (IH s1) as E2. destruct (for_each l f s1) as [rs s2].
    cbn [snd] in *. subst s1 s2. rewrite after_add. f_equal.
    unfold trials_of. simpl. lia.
Qed.

Lemma for_each_rows (P : Z -> A -> Prop) l :
  (forall n s, In n l -> P n (fst (f n s))) ->
  forall s, Forall2 P l (fst (for_each l f s)).
Proof.
  induction l as [|n l IH]; intros HP s; [constructor|].
  simpl for_each. unfold bind, ret.
  pose proof (HP n s (or_introl eq_refl)) as H1. destruct (f n s) as [r s1].
  assert (H2 : Forall2 P l (fst (for_each l f s1))).
  { apply IH. intros n0 s0 Hin. apply HP. right. exact Hin. }
  destruct (for_each l f s1) as [rs s2]. constructor; assumption.
Qed.

End ForEach.

Lemma method1_state n s : snd (method1 n s) = RNG.after (2 * Z.to_nat n) s.
Proof. rewrite method1_run. reflexivity. Qed.

Lemma method2_state n s : snd (method2 n s) = RNG.after (2 * Z.to_nat n) s.
Proof. rewrite method2_run. reflexivity. Qed.

Lemma method3_state crossing n s :
  snd (method3 crossing n s) = RNG.after (4 * Z.to_nat n) s.
Proof. rewrite method3_run. reflexivity. Qed.

(** Names the table a method prints over the list [l] from the register [s]
    and puts the register it leaves in terms of [RNG.after]. *)
Ltac name_table f k f_state l s :=
  let H := fresh "H" in
  let t := fresh "t" in
  let s' := fresh "s" in
  pose proof (for_each_state f k f_state l s) as H;
  destruct (for_each l f s) as [t s'];
  cbn [snd] in H; subst s'.

Lemma tables_run crossing l seed :
  tables crossing l seed =
    ((fst (for_each l method1 (RNG.init seed)),
      fst (for_each l method2 (RNG.after (2 * trials_of l) (RNG.init seed))),
      fst (for_each l (method3 crossing)
             (RNG.after (4 * trials_of l) (RNG.init seed)))),
     RNG.after (8 * trials_of l) (RNG.init seed)).
Proof.
  unfold tables, bind, ret.
  replace (4 * trials_of l)%nat with (2 * trials_of l + 2 * trials_of l)%nat by lia.
  replace (8 * trials_of l)%nat
    with (4 * trials_of l + (2 * trials_of l + 2 * trials_of l))%nat by lia.
  rewrite <- !after_add.
  name_table method1 2%nat method1_state l (RNG.init seed).
  name_table method2 2%nat method2_state l
    (RNG.after (2 * trials_of l) (RNG.init seed)).
  name_table (method3 crossing) 4%nat (method3_state crossing) l
    (RNG.after (2 * trials_of l) (RNG.after (2 * trials_of l) (RNG.init seed))).
  reflexivity.
Qed.

(** X10: the driver runs the three methods on one engine, each over the
    whole list of sample sizes: with [T] the sum of the sample sizes, the
    second table is what method 2 prints from the register [2T] outputs after
    construction, the third what method 3 prints from the register [4T]
    outputs after construction, and the engine ends [8T] outputs after
    construction; for the list of [main] that is 888800 outputs. *)
Theorem tables_stream_positions crossing l seed :
  let s0 := RNG.init seed in
  let T := trials_of l in
  tables crossing l seed =
    ((fst (for_each l method1 s0),
      fst (for_each l method2 (RNG.after (2 * T) s0)),
      fst (for_each l (method3 crossing) (RNG.after (4 * T) s0))),
     RNG.after (8 * T) s0) /\
  snd (main crossing) = RNG.after (Z.to_nat 888800) 123456789.
Proof.
  intros s0 T. split; [apply tables_run|].
  assert (E : (8 * trials_of Driver.Ns)%nat = Z.to_nat 888800).
  { unfold trials_of, Driver.Ns. cbn [map list_sum fold_right]. lia. }
  unfold main. rewrite tables_run. cbn [snd]. rewrite E. reflexivity.
Qed.

Lemma count_in_range {A} (accept : A -> bool) (draw : RNGM A)
    (count : Z -> RNGM Z) n s :
  (forall trials s0, trials < 2 ^ 32 ->
     count trials s0 =
       (tally accept (draws draw (Z.to_nat trials) s0),
        drained draw (Z.to_nat trials) s0)) ->
  u32 n -> 0 <= fst (count n s) <= n.
Proof.
  intros Hc [H0 H1]. rewrite Hc by exact H1. cbn [fst].
  apply tally_draws_bounds, H0.
Qed.

(** X11: for sample sizes that are 32-bit words, each of the three tables
    of the driver has one row per sample size, in the order of the list, with
    that sample size in its [N] column and a count between 0 and [N]. *)
Theorem tables_rows crossing l seed :
  Forall u32 l ->
  let row_ok := fun n r => row_N r = n /\ 0 <= row_count r <= n in
  Forall2 row_ok l (fst (fst (fst (tables crossing l seed)))) /\
  Forall2 row_ok l (snd (fst (fst (tables crossing l seed)))) /\
  Forall2 row_ok l (snd (fst (tables crossing l seed))).
Proof.
  intros Hl row_ok. rewrite tables_run. cbn [fst snd].
  rewrite Forall_forall in Hl.
  split; [|split]; apply for_each_rows; intros n s Hin; specialize (Hl n Hin).
  - rewrite method1_run. cbn [fst]. split; [reflexivity|].
    apply (count_in_range circle_test circle_draw circle_count_uint n s
             circle_count_tally32 Hl).
  - rewrite method2_run. cbn [fst]. split; [reflexivity|].
    apply (count_in_range coprime_test coprime_draw coprime_count n s
             coprime_count_tally Hl).
  - rewrite method3_run. cbn [fst]. split; [reflexivity|].
    apply (count_in_range (buffon_test crossing) buffon_draw
             (buffon_count crossing) n s (buffon_count_tally crossing) Hl).
Qed.

Lemma tables_rows_witness :
  let crossing := fun u v : Q => Qle_bool u v in
  let row_ok := fun n r => row_N r = n /\ 0 <= row_count r <= n in
  Forall2 row_ok [2; 3] (fst (fst (fst (tables crossing [2; 3] 123456789)))) /\
  Forall2 row_ok [2; 3] (snd (fst (fst (tables crossing [2; 3] 123456789)))) /\
  Forall2 row_ok [2; 3] (snd (fst (tables crossing [2; 3] 123456789))).
Proof.
  apply (tables_rows (fun u v : Q => Qle_bool u v) [2; 3] 123456789).
  repeat constructor; unfold u32; lia.
Defined.
